(** * Verification of [wasm-sysroot/endian.h]

    The header gives the WebAssembly sysroot the two 16-bit byte-order
    conversions that a libc would otherwise provide:

    - [le16toh], the identity (the target is little-endian,
      [TS_LITTLE_ENDIAN] is 1);
    - [be16toh], the byte swap, written twice: through the compiler
      intrinsic [__builtin_bswap16] when [__GNUC__] or [__clang__] is
      defined, and as [(x << 8) | (x >> 8)] otherwise.

    A [uint16_t] is a [Z] in the range [0 .. 65535].  C arithmetic is
    written out: the integer promotion to [int], the shifts of a signed
    [int] with their undefined cases, and the conversion back to
    [uint16_t] on [return], which reduces modulo [2^16].  A C function is a
    Rocq function into [option]: [None] stands for undefined behaviour. *)

From Stdlib Require Import ZArith List Bool Lia.
Import ListNotations.

Local Open Scope Z_scope.

(** ** Undefined behaviour as an error monad *)

Module UB.

Definition t (A : Type) : Type := option A.

Definition ret {A : Type} (a : A) : t A := Some a.

Definition undefined {A : Type} : t A := None.

Definition bind {A B : Type} (m : t A) (k : A -> t B) : t B :=
  match m with
  | Some a => k a
  | None => None
  end.

End UB.

Notation "x <- m ;; k" := (UB.bind m (fun x => k))
  (at level 61, m at next level, right associativity).

(** ** The C integer types of the wasm32 target *)

Module C.

(** [uint16_t] of [<stdint.h>]. *)
Definition UINT16_WIDTH : Z := 16.
Definition UINT16_MAX : Z := 65535.

Definition is_uint16 (x : Z) : Prop := 0 <= x <= UINT16_MAX.

(** An octet. *)
Definition is_byte (b : Z) : Prop := 0 <= b <= 255.

(** [int] is 32 bits wide on wasm32. *)
Definition INT_WIDTH : Z := 32.
Definition INT_MAX : Z := 2 ^ (INT_WIDTH - 1) - 1.
Definition INT_MIN : Z := - 2 ^ (INT_WIDTH - 1).

Definition is_int (v : Z) : Prop := INT_MIN <= v <= INT_MAX.

(** Integer promotion of a [uint16_t] operand: [int] represents every
    value of [uint16_t], so the operand becomes an [int] of the same
    value. *)
Definition promote (x : Z) : Z := x.

(** [a << n] at type [int] (C11 6.5.7p4): undefined when the count is
    negative or not less than the width, when [a] is negative, and when
    [a * 2^n] is not representable in [int]. *)
Definition int_shl (a n : Z) : UB.t Z :=
  if (0 <=? n) && (n <? INT_WIDTH) && (0 <=? a) && (a * 2 ^ n <=? INT_MAX)
  then UB.ret (Z.shiftl a n)
  else UB.undefined.

(** [a >> n] at type [int] (C11 6.5.7p5): undefined when the count is
    negative or not less than the width; for a negative [a] the result is
    implementation-defined, and clang and gcc shift arithmetically, as
    [Z.shiftr] does. *)
Definition int_shr (a n : Z) : UB.t Z :=
  if (0 <=? n) && (n <? INT_WIDTH)
  then UB.ret (Z.shiftr a n)
  else UB.undefined.

(** [a | b] at type [int]. *)
Definition int_or (a b : Z) : Z := Z.lor a b.

(** Conversion of an [int] to [uint16_t] (C11 6.3.1.3p2): the value is
    reduced modulo [UINT16_MAX + 1]. *)
Definition to_uint16 (v : Z) : Z := v mod 2 ^ UINT16_WIDTH.

End C.

(** ** The compiler intrinsic *)

Module Octets.

(** The object representation of a [uint16_t]: its two octets, the
    least significant first. *)
Definition octets (x : Z) : list Z :=
  [Z.land x 255; Z.land (Z.shiftr x 8) 255].

(** The value a sequence of octets represents, least significant first. *)
Fixpoint of_octets (bs : list Z) : Z :=
  match bs with
  | [] => 0
  | b :: bs' => Z.lor b (Z.shiftl (of_octets bs') 8)
  end.

End Octets.

(** Modelled from the spec: the body of the intrinsic [__builtin_bswap16]
    belongs to the compiler and is not part of the header.  The spec calls
    it "a dedicated byte-swap primitive"; the compiler manuals define it as
    returning its argument "with the order of the bytes reversed", a byte
    being 8 bits.  It is modelled as that: the octets of the argument, read
    back in reverse order. *)
Definition __builtin_bswap16 (x : Z) : Z :=
  Octets.of_octets (rev (Octets.octets x)).

(** ** The header *)

(** The predefined macros the header tests. *)
Record toolchain : Type := Toolchain {
  __GNUC__ : bool;    (* defined(__GNUC__) *)
  __clang__ : bool    (* defined(__clang__) *)
}.

Definition TS_LITTLE_ENDIAN : Z := 1.

(** [static inline uint16_t le16toh(uint16_t x) { return x; }] *)
Definition le16toh (x : Z) : UB.t Z := UB.ret x.

(** The [#if] branch of [be16toh]: [return __builtin_bswap16(x);] *)
Definition be16toh_builtin (x : Z) : UB.t Z :=
  UB.ret (__builtin_bswap16 x).

(** The value of the expression [(x << 8) | (x >> 8)], of type [int]:
    both occurrences of [x] are promoted before they are shifted. *)
Definition be16toh_portable_expr (x : Z) : UB.t Z :=
  l <- C.int_shl (C.promote x) 8 ;;
  r <- C.int_shr (C.promote x) 8 ;;
  UB.ret (C.int_or l r).

(** The [#else] branch of [be16toh]: [return (x << 8) | (x >> 8);], the
    [int] converted to the return type [uint16_t]. *)
Definition be16toh_portable (x : Z) : UB.t Z :=
  v <- be16toh_portable_expr x ;;
  UB.ret (C.to_uint16 v).

(** [static inline uint16_t be16toh(uint16_t x)] *)
Definition be16toh (tc : toolchain) (x : Z) : UB.t Z :=
  if __GNUC__ tc || __clang__ tc
  then be16toh_builtin x
  else be16toh_portable x.

(** ** The spec's vocabulary *)

Module Spec.

(** [(hi << 8) | lo]: the 16-bit value made of two octets. *)
Definition join (hi lo : Z) : Z := Z.lor (Z.shiftl hi 8) lo.

(** The high-order and the low-order 8 bits of a 16-bit value. *)
Definition hi (x : Z) : Z := Z.shiftr x 8.
Definition lo (x : Z) : Z := Z.land x 255.

(** "The value with its two constituent bytes swapped". *)
Definition swap (x : Z) : Z := join (lo x) (hi x).

(** The same, bit by bit: bit [i] of the swapped value, for [0 <= i]. *)
Definition swapped_bit (x i : Z) : bool :=
  if i <? 8 then Z.testbit x (i + 8)
  else if i <? 16 then Z.testbit x (i - 8)
  else false.

End Spec.

(** ** The two functions as one family *)

(** The two functions of the header. *)
Inductive conversion : Type := Le16toh | Be16toh.

Definition convert (tc : toolchain) (f : conversion) (x : Z) : UB.t Z :=
  match f with
  | Le16toh => le16toh x
  | Be16toh => be16toh tc x
  end.

(** Two toolchains: clang, which also defines [__GNUC__] and builds the
    sysroot, and a compiler that defines neither macro. *)
Definition clang : toolchain := Toolchain true true.
Definition plain_cc : toolchain := Toolchain false false.

(** ** Checking a property on a whole range *)

(** [p] on [x], [x + 1], ..., [n] values in all. *)
Fixpoint holds_from (n : nat) (x : Z) (p : Z -> bool) : bool :=
  match n with
  | O => true
  | S n' => p x && holds_from n' (x + 1) p
  end.

Definition result_eqb (a b : UB.t Z) : bool :=
  match a, b with
  | Some u, Some v => u =? v
  | None, None => true
  | _, _ => false
  end.

(** The two branches of [be16toh] return the same on [x]. *)
Definition branches_agree (x : Z) : bool :=
  result_eqb (be16toh_builtin x) (be16toh_portable x).

(** ** Bit operations as arithmetic *)

Lemma shiftl_8 (a : Z) : Z.shiftl a 8 = 256 * a.
Proof. rewrite Z.shiftl_mul_pow2 by lia. change (2 ^ 8) with 256. lia. Qed.

Lemma shiftr_8 (a : Z) : Z.shiftr a 8 = a / 256.
Proof. now rewrite Z.shiftr_div_pow2 by lia. Qed.

Lemma land_255 (a : Z) : Z.land a 255 = a mod 256.
Proof. change 255 with (Z.ones 8). now rewrite Z.land_ones by lia. Qed.

(** An octet has no bit at position 8 or above. *)
Lemma byte_bits_high (b n : Z) :
  C.is_byte b -> 8 <= n -> Z.testbit b n = false.
Proof.
  intros [Hb0 Hb1] Hn.
  rewrite <- (Z.mod_small b (2 ^ 8)) by (change (2 ^ 8) with 256; lia).
  apply Z.mod_pow2_bits_high. lia.
Qed.

(** A value shifted left by 8 and an octet share no bit. *)
Lemma land_shiftl_byte (a b : Z) :
  C.is_byte b -> Z.land (Z.shiftl a 8) b = 0.
Proof.
  intros Hb. apply Z.bits_inj'. intros n Hn.
  rewrite Z.land_spec, Z.bits_0.
  destruct (Z.lt_ge_cases n 8) as [Hlt | Hge].
  - rewrite Z.shiftl_spec_low by assumption. reflexivity.
  - rewrite (byte_bits_high b n Hb Hge). apply andb_false_r.
Qed.

(** So [|] places the octet below the shifted value without carry. *)
Lemma join_add (a b : Z) :
  C.is_byte b -> Spec.join a b = 256 * a + b.
Proof.
  intros Hb. unfold Spec.join.
  pose proof (Z.add_lor_land (Z.shiftl a 8) b) as H.
  rewrite (land_shiftl_byte a b Hb), shiftl_8 in H.
  rewrite shiftl_8. lia.
Qed.

Lemma join_uint16 (hi lo : Z) :
  C.is_byte hi -> C.is_byte lo -> C.is_uint16 (Spec.join hi lo).
Proof.
  intros Hh Hl. rewrite (join_add hi lo Hl).
  unfold C.is_byte, C.is_uint16, C.UINT16_MAX in *. lia.
Qed.

Lemma hi_join (hi lo : Z) :
  C.is_byte lo -> Spec.hi (Spec.join hi lo) = hi.
Proof.
  intros Hl. unfold Spec.hi. rewrite shiftr_8, (join_add hi lo Hl).
  unfold C.is_byte in Hl.
  rewrite Z.mul_comm, Z.div_add_l by lia.
  rewrite Z.div_small by lia. lia.
Qed.

Lemma lo_join (hi lo : Z) :
  C.is_byte lo -> Spec.lo (Spec.join hi lo) = lo.
Proof.
  intros Hl. unfold Spec.lo. rewrite land_255, (join_add hi lo Hl).
  unfold C.is_byte in Hl.
  rewrite Z.add_comm, Z.mul_comm, Z.mod_add by lia.
  apply Z.mod_small. lia.
Qed.

Lemma hi_byte (x : Z) : C.is_uint16 x -> C.is_byte (Spec.hi x).
Proof.
  unfold C.is_uint16, C.UINT16_MAX, C.is_byte, Spec.hi. intros Hx.
  rewrite shiftr_8.
  split; [apply Z.div_pos; lia | ].
  apply Z.lt_succ_r, Z.div_lt_upper_bound; lia.
Qed.

Lemma lo_byte (x : Z) : C.is_byte (Spec.lo x).
Proof.
  unfold C.is_byte, Spec.lo. rewrite land_255.
  pose proof (Z.mod_pos_bound x 256). lia.
Qed.

(** Every 16-bit value is the join of its two octets. *)
Lemma join_hi_lo (x : Z) : Spec.join (Spec.hi x) (Spec.lo x) = x.
Proof.
  rewrite (join_add _ _ (lo_byte x)).
  unfold Spec.hi, Spec.lo. rewrite shiftr_8, land_255.
  symmetry. apply Z.div_mod. lia.
Qed.



(** ** The two branches of [be16toh] *)

Section Branches.

Variable x : Z.
Hypothesis Hx : C.is_uint16 x.

Lemma bswap16_swap : __builtin_bswap16 x = Spec.swap x.
Proof.
  unfold __builtin_bswap16, Octets.octets.
  cbn [rev app Octets.of_octets].
  rewrite Z.shiftl_0_l, Z.lor_0_r.
  fold (Spec.hi x) (Spec.lo x).
  destruct (hi_byte x Hx) as [Hh0 Hh1].
  rewrite (land_255 (Spec.hi x)), Z.mod_small by lia.
  apply Z.lor_comm.
Qed.

Lemma be16toh_builtin_swap : be16toh_builtin x = Some (Spec.swap x).
Proof. unfold be16toh_builtin, UB.ret. now rewrite bswap16_swap. Qed.

(** Neither shift of the promoted operand is undefined: [x * 2^8] is
    below [2^24]. *)
Lemma int_shl_8 : C.int_shl (C.promote x) 8 = Some (Z.shiftl x 8).
Proof.
  unfold C.int_shl, C.promote, C.is_uint16, C.UINT16_MAX in *.
  change C.INT_WIDTH with 32. change C.INT_MAX with 2147483647.
  change (2 ^ 8) with 256.
  replace (0 <=? x) with true by (symmetry; apply Z.leb_le; lia).
  replace (x * 256 <=? 2147483647) with true
    by (symmetry; apply Z.leb_le; lia).
  reflexivity.
Qed.

Lemma int_shr_8 : C.int_shr (C.promote x) 8 = Some (Z.shiftr x 8).
Proof. reflexivity. Qed.

Lemma portable_expr_value :
  be16toh_portable_expr x = Some (Spec.join x (Spec.hi x)).
Proof.
  unfold be16toh_portable_expr. rewrite int_shl_8, int_shr_8.
  reflexivity.
Qed.

(** The [int] is the swapped value with the old high octet left at bits
    16 to 23. *)
Lemma portable_expr_excess :
  Spec.join x (Spec.hi x) = Spec.swap x + 2 ^ 16 * Spec.hi x.
Proof.
  unfold Spec.swap.
  rewrite !join_add by (apply hi_byte; exact Hx).
  rewrite <- (join_hi_lo x) at 1.
  rewrite (join_add _ _ (lo_byte x)).
  change (2 ^ 16) with 65536. lia.
Qed.

Lemma swap_uint16 : C.is_uint16 (Spec.swap x).
Proof. apply join_uint16; [apply lo_byte | apply hi_byte; exact Hx]. Qed.

Lemma be16toh_portable_swap : be16toh_portable x = Some (Spec.swap x).
Proof.
  unfold be16toh_portable. rewrite portable_expr_value.
  cbn [UB.bind]. unfold UB.ret, C.to_uint16. f_equal.
  rewrite portable_expr_excess.
  change (2 ^ C.UINT16_WIDTH) with (2 ^ 16).
  rewrite (Z.mul_comm (2 ^ 16)), Z.mod_add by lia.
  apply Z.mod_small.
  pose proof swap_uint16 as Hs.
  unfold C.is_uint16, C.UINT16_MAX in Hs. lia.
Qed.

Lemma be16toh_swap (tc : toolchain) : be16toh tc x = Some (Spec.swap x).
Proof.
  unfold be16toh.
  destruct (__GNUC__ tc || __clang__ tc).
  - apply be16toh_builtin_swap.
  - apply be16toh_portable_swap.
Qed.

End Branches.

Lemma swap_join (hi lo : Z) :
  C.is_byte hi -> C.is_byte lo -> Spec.swap (Spec.join hi lo) = Spec.join lo hi.
Proof.
  intros Hh Hl. unfold Spec.swap.
  now rewrite (hi_join hi lo Hl), (lo_join hi lo Hl).
Qed.

Lemma swap_swap (x : Z) : C.is_uint16 x -> Spec.swap (Spec.swap x) = x.
Proof.
  intros Hx. unfold Spec.swap at 2.
  rewrite swap_join by (apply lo_byte || apply hi_byte; exact Hx).
  apply join_hi_lo.
Qed.

(** A [uint16_t] has no bit at position 16 or above. *)
Lemma uint16_bits_high (x n : Z) :
  C.is_uint16 x -> 16 <= n -> Z.testbit x n = false.
Proof.
  unfold C.is_uint16, C.UINT16_MAX. intros Hx Hn.
  rewrite <- (Z.mod_small x (2 ^ 16)) by (change (2 ^ 16) with 65536; lia).
  apply Z.mod_pow2_bits_high. lia.
Qed.

(** The swap moves bits 8 to 15 down to 0 to 7 and bits 0 to 7 up to 8 to
    15, and sets no other bit. *)
Lemma swap_testbit (x i : Z) :
  C.is_uint16 x -> 0 <= i ->
  Z.testbit (Spec.swap x) i = Spec.swapped_bit x i.
Proof.
  intros Hx Hi.
  unfold Spec.swap, Spec.join, Spec.hi, Spec.lo, Spec.swapped_bit.
  rewrite Z.lor_spec, Z.shiftl_spec, Z.land_spec, Z.shiftr_spec
    by assumption.
  change 255 with (Z.ones 8).
  destruct (Z.ltb_spec i 8) as [H8 | H8].
  - rewrite (Z.testbit_neg_r x (i - 8)) by lia. reflexivity.
  - rewrite (uint16_bits_high x (i + 8) Hx) by lia.
    rewrite orb_false_r.
    destruct (Z.ltb_spec i 16) as [H16 | H16].
    + rewrite Z.ones_spec_low by lia. apply andb_true_r.
    + rewrite Z.ones_spec_high by lia. apply andb_false_r.
Qed.

(** The undefined case of [<<] is there: a 24-bit operand shifted by 8
    leaves [int]. *)
Example int_shl_can_overflow :
  C.int_shl 0x7FFFFF 8 = Some 0x7FFFFF00 /\ C.int_shl 0x800000 8 = None.
Proof. split; reflexivity. Qed.

(** A call of either function returns, and returns a [uint16_t]. *)
Lemma convert_returns (tc : toolchain) (f : conversion) (x : Z) :
  C.is_uint16 x ->
  exists r : Z, convert tc f x = Some r /\ C.is_uint16 r.
Proof.
  intros Hx. destruct f; cbn [convert].
  - exists x. split; [reflexivity | exact Hx].
  - exists (Spec.swap x). split.
    + apply be16toh_swap. exact Hx.
    + apply swap_uint16. exact Hx.
Qed.

(** ** Exhaustive checks *)

Lemma holds_from_spec (p : Z -> bool) (n : nat) :
  forall x, holds_from n x p = true ->
  forall y, x <= y < x + Z.of_nat n -> p y = true.
Proof.
  induction n as [| n IH]; intros x H y Hy.
  - cbn in Hy. lia.
  - cbn [holds_from] in H. apply andb_true_iff in H as [Hpx Hrest].
    destruct (Z.eq_dec y x) as [-> | Hne]; [exact Hpx | ].
    apply (IH (x + 1) Hrest). lia.
Qed.

Lemma result_eqb_eq (a b : UB.t Z) : result_eqb a b = true -> a = b.
Proof.
  destruct a as [u |], b as [v |]; cbn; intros H;
    try discriminate; try reflexivity.
  apply Z.eqb_eq in H. now subst.
Qed.

(** All 65,536 inputs, one after the other. *)
Lemma branches_agree_on_all :
  holds_from (Z.to_nat 65536) 0 branches_agree = true.
Proof. vm_compute. reflexivity. Qed.

(** ** The properties of the header *)

Ltac in_range := unfold C.is_byte, C.is_uint16, C.UINT16_MAX in *; lia.

(** C1. Byte-swap correctness: for every 16-bit [x = (hi << 8) | lo] with
    [hi] and [lo] in [0, 255], [be16toh x] returns [(lo << 8) | hi], with
    either toolchain. *)
Theorem be16toh_swaps_bytes (tc : toolchain) (hi lo : Z) :
  C.is_byte hi -> C.is_byte lo ->
  be16toh tc (Spec.join hi lo) = Some (Spec.join lo hi).
Proof.
  intros Hh Hl.
  rewrite (be16toh_swap _ (join_uint16 hi lo Hh Hl)).
  f_equal. apply swap_join; assumption.
Qed.

Lemma be16toh_swaps_bytes_witness :
  C.is_byte 0xAB /\ C.is_byte 0xCD /\
  be16toh plain_cc (Spec.join 0xAB 0xCD) = Some (Spec.join 0xCD 0xAB).
Proof.
  split; [in_range | split; [in_range | ]].
  apply (be16toh_swaps_bytes plain_cc 0xAB 0xCD); in_range.
Defined.

(** C2. Identity: for every 16-bit [x], [le16toh x] returns [x]. *)
Theorem le16toh_identity (x : Z) :
  C.is_uint16 x -> le16toh x = Some x.
Proof. intros _. reflexivity. Qed.

Lemma le16toh_identity_witness :
  C.is_uint16 0xBEEF /\ le16toh 0xBEEF = Some 0xBEEF.
Proof.
  split; [in_range | ].
  apply (le16toh_identity 0xBEEF); in_range.
Defined.

(** C3. Involution: for every 16-bit [x], [be16toh (be16toh x)] is
    [x]. *)
Theorem be16toh_involution (tc : toolchain) (x : Z) :
  C.is_uint16 x ->
  (y <- be16toh tc x ;; be16toh tc y) = Some x.
Proof.
  intros Hx. rewrite (be16toh_swap x Hx). cbn [UB.bind].
  rewrite (be16toh_swap _ (swap_uint16 x Hx)).
  f_equal. apply swap_swap. exact Hx.
Qed.

Lemma be16toh_involution_witness :
  C.is_uint16 0x1234 /\
  (y <- be16toh clang 0x1234 ;; be16toh clang y) = Some 0x1234.
Proof.
  split; [in_range | ].
  apply (be16toh_involution clang 0x1234); in_range.
Defined.



(** C5. Boundary cases: [be16toh] maps 0x0000 to 0x0000, 0xFFFF to 0xFFFF,
    0x1234 to 0x3412, 0x00FF to 0xFF00 and 0xFF00 to 0x00FF, with either
    toolchain. *)
Theorem be16toh_boundary_cases (tc : toolchain) :
  be16toh tc 0x0000 = Some 0x0000 /\
  be16toh tc 0xFFFF = Some 0xFFFF /\
  be16toh tc 0x1234 = Some 0x3412 /\
  be16toh tc 0x00FF = Some 0xFF00 /\
  be16toh tc 0xFF00 = Some 0x00FF.
Proof.
  destruct tc as [[|] [|]]; repeat split; reflexivity.
Qed.

(** C6. The two implementations of [be16toh], the intrinsic
    [__builtin_bswap16] and the portable [(x << 8) | (x >> 8)] truncated
    to 16 bits, return the same on each of the 65,536 inputs; so the
    choice of toolchain does not show. *)
Theorem be16toh_branches_agree (x : Z) :
  C.is_uint16 x ->
  be16toh_builtin x = be16toh_portable x /\
  forall tc1 tc2 : toolchain, be16toh tc1 x = be16toh tc2 x.
Proof.
  intros Hx.
  assert (E : be16toh_builtin x = be16toh_portable x).
  { apply result_eqb_eq.
    apply (holds_from_spec branches_agree _ 0 branches_agree_on_all).
    rewrite Z2Nat.id by lia. in_range. }
  split; [exact E | ].
  intros tc1 tc2. unfold be16toh.
  destruct (__GNUC__ tc1 || __clang__ tc1),
           (__GNUC__ tc2 || __clang__ tc2);
    rewrite ?E; reflexivity.
Qed.

Lemma be16toh_branches_agree_witness :
  C.is_uint16 0xA55A /\
  be16toh_builtin 0xA55A = be16toh_portable 0xA55A /\
  forall tc1 tc2 : toolchain, be16toh tc1 0xA55A = be16toh tc2 0xA55A.
Proof.
  split; [in_range | ].
  apply (be16toh_branches_agree 0xA55A); in_range.
Defined.

(** C7, as the code has it: for every 16-bit [x],
    [le16toh (be16toh x)] and [be16toh (le16toh x)] are equal, both being
    the byte swap of [x], whether or not the two bytes of [x] are
    equal. *)
Theorem cross_check_always_holds (tc : toolchain) (x : Z) :
  C.is_uint16 x ->
  (y <- be16toh tc x ;; le16toh y) = (y <- le16toh x ;; be16toh tc y) /\
  (y <- le16toh x ;; be16toh tc y) = Some (Spec.swap x).
Proof.
  intros Hx. unfold le16toh. cbn [UB.bind UB.ret].
  rewrite (be16toh_swap x Hx). split; reflexivity.
Qed.

Lemma cross_check_always_holds_witness :
  C.is_uint16 0x00FF /\
  (y <- be16toh plain_cc 0x00FF ;; le16toh y)
  = (y <- le16toh 0x00FF ;; be16toh plain_cc y) /\
  (y <- le16toh 0x00FF ;; be16toh plain_cc y) = Some (Spec.swap 0x00FF).
Proof.
  split; [in_range | ].
  apply (cross_check_always_holds plain_cc 0x00FF); in_range.
Defined.

(** C7 as the spec words it fails: at [x = 0x1234] the two bytes differ,
    and the two compositions are equal all the same, with either
    toolchain. *)
Lemma cross_check_holds_with_distinct_bytes :
  Spec.join 0x12 0x34 = 0x1234 /\ 0x12 <> 0x34 /\
  (y <- be16toh clang 0x1234 ;; le16toh y)
  = (y <- le16toh 0x1234 ;; be16toh clang y) /\
  (y <- be16toh plain_cc 0x1234 ;; le16toh y)
  = (y <- le16toh 0x1234 ;; be16toh plain_cc y).
Proof.
  split; [reflexivity | ]. split; [discriminate | ].
  split; reflexivity.
Qed.

(** C8. Totality: on every one of the 65,536 inputs [le16toh] and
    [be16toh] return a value, that value is a 16-bit unsigned integer,
    and no evaluation step is undefined. *)
Theorem conversions_total (tc : toolchain) (x : Z) :
  C.is_uint16 x ->
  (exists r : Z, le16toh x = Some r /\ C.is_uint16 r) /\
  (exists r : Z, be16toh tc x = Some r /\ C.is_uint16 r).
Proof.
  intros Hx. split.
  - exact (convert_returns tc Le16toh x Hx).
  - exact (convert_returns tc Be16toh x Hx).
Qed.

Lemma conversions_total_witness :
  C.is_uint16 0xFFFF /\
  (exists r : Z, le16toh 0xFFFF = Some r /\ C.is_uint16 r) /\
  (exists r : Z, be16toh plain_cc 0xFFFF = Some r /\ C.is_uint16 r).
Proof.
  split; [in_range | ].
  apply (conversions_total plain_cc 0xFFFF); in_range.
Defined.

(** C10. In the portable branch [x] is promoted to [int] before it is
    shifted: [(x << 8) | (x >> 8)] is defined, its [int] value is the
    swapped value plus the old high byte at bits 16 to 23, and the
    conversion to [uint16_t] on [return] drops exactly that excess, so
    the function returns the 16-bit byte swap: bits 0 to 7 and bits 8 to
    15 of [x] exchanged, and no bit at 16 or above. *)
Theorem portable_truncation_exact (x : Z) :
  C.is_uint16 x ->
  be16toh_portable_expr x = Some (Spec.swap x + 2 ^ 16 * Spec.hi x) /\
  C.is_int (Spec.swap x + 2 ^ 16 * Spec.hi x) /\
  exists r : Z,
    be16toh_portable x = Some r /\
    r = Spec.swap x /\
    r = C.to_uint16 (Spec.swap x + 2 ^ 16 * Spec.hi x) /\
    forall i : Z, 0 <= i -> Z.testbit r i = Spec.swapped_bit x i.
Proof.
  intros Hx.
  pose proof (be16toh_portable_swap x Hx) as Hp.
  pose proof (portable_expr_value x Hx) as He.
  rewrite (portable_expr_excess x Hx) in He.
  split; [exact He | ].
  split.
  - pose proof (swap_uint16 x Hx) as Hs. pose proof (hi_byte x Hx) as Hh.
    unfold C.is_int. change C.INT_MIN with (-2147483648).
    change C.INT_MAX with 2147483647. change (2 ^ 16) with 65536.
    in_range.
  - exists (Spec.swap x).
    split; [exact Hp | ]. split; [reflexivity | ]. split.
    + unfold be16toh_portable in Hp. rewrite He in Hp.
      cbn [UB.bind] in Hp. unfold UB.ret in Hp. now injection Hp.
    + intros i Hi. apply swap_testbit; assumption.
Qed.

Lemma portable_truncation_exact_witness :
  C.is_uint16 0xFFFF /\
  be16toh_portable_expr 0xFFFF = Some 0xFFFFFF /\
  be16toh_portable 0xFFFF = Some 0xFFFF.
Proof.
  split; [in_range | ].
  destruct (portable_truncation_exact 0xFFFF) as [He [_ [r [Hp [Hr _]]]]];
    [in_range | ].
  split; [exact He | ]. rewrite Hp, Hr. reflexivity.
Defined.

(** ** Further properties of the header *)

(** A non-negative integer with no bit at 16 or above is a [uint16_t]. *)
Lemma uint16_of_bits (x : Z) :
  0 <= x -> (forall n, 16 <= n -> Z.testbit x n = false) ->
  C.is_uint16 x.
Proof.
  intros Hx Hhigh.
  assert (E : x = x mod 2 ^ 16).
  { apply Z.bits_inj'. intros n Hn.
    destruct (Z.lt_ge_cases n 16) as [Hlt | Hge].
    - now rewrite Z.mod_pow2_bits_low by assumption.
    - rewrite Z.mod_pow2_bits_high by lia. now apply Hhigh. }
  pose proof (Z.mod_pos_bound x (2 ^ 16)) as Hb.
  change (2 ^ 16) with 65536 in *.
  unfold C.is_uint16, C.UINT16_MAX. lia.
Qed.

(** The bitwise operators stay within [uint16_t]. *)
Lemma bitwise_uint16 (a b : Z) :
  C.is_uint16 a -> C.is_uint16 b ->
  C.is_uint16 (Z.lor a b) /\ C.is_uint16 (Z.land a b) /\
  C.is_uint16 (Z.lxor a b).
Proof.
  intros Ha Hb.
  assert (Ha0 : 0 <= a) by (unfold C.is_uint16 in Ha; lia).
  assert (Hb0 : 0 <= b) by (unfold C.is_uint16 in Hb; lia).
  split; [ | split]; apply uint16_of_bits.
  - apply Z.lor_nonneg. now split.
  - intros n Hn. rewrite Z.lor_spec.
    now rewrite (uint16_bits_high a n Ha Hn), (uint16_bits_high b n Hb Hn).
  - apply Z.land_nonneg. now left.
  - intros n Hn. rewrite Z.land_spec.
    now rewrite (uint16_bits_high a n Ha Hn).
  - apply Z.lxor_nonneg. tauto.
  - intros n Hn. rewrite Z.lxor_spec.
    now rewrite (uint16_bits_high a n Ha Hn), (uint16_bits_high b n Hb Hn).
Qed.

(** The swap commutes with the bitwise operators on [uint16_t]: each
    bit of the result comes from one bit of the operand. *)
Section SwapBitwise.

Variables a b : Z.
Hypothesis Ha : C.is_uint16 a.
Hypothesis Hb : C.is_uint16 b.

Let closed := bitwise_uint16 a b Ha Hb.

Ltac swap_bitwise H :=
  apply Z.bits_inj'; intros i Hi;
  rewrite ?Z.lor_spec, ?Z.land_spec, ?Z.lxor_spec;
  rewrite (swap_testbit _ i H Hi),
          (swap_testbit a i Ha Hi), (swap_testbit b i Hb Hi);
  unfold Spec.swapped_bit;
  rewrite ?Z.lor_spec, ?Z.land_spec, ?Z.lxor_spec;
  destruct (i <? 8); [reflexivity | ];
  destruct (i <? 16); reflexivity.

Lemma swap_lor :
  Spec.swap (Z.lor a b) = Z.lor (Spec.swap a) (Spec.swap b).
Proof. swap_bitwise (proj1 closed). Qed.

Lemma swap_land :
  Spec.swap (Z.land a b) = Z.land (Spec.swap a) (Spec.swap b).
Proof. swap_bitwise (proj1 (proj2 closed)). Qed.

Lemma swap_lxor :
  Spec.swap (Z.lxor a b) = Z.lxor (Spec.swap a) (Spec.swap b).
Proof. swap_bitwise (proj2 (proj2 closed)). Qed.

End SwapBitwise.

(** The value the two octets [b0], [b1] stand for when they lie in that
    order in the memory of the little-endian target. *)
Lemma of_octets_pair (b0 b1 : Z) :
  Octets.of_octets [b0; b1] = Spec.join b1 b0.
Proof.
  cbn [Octets.of_octets]. rewrite Z.shiftl_0_l, Z.lor_0_r.
  apply Z.lor_comm.
Qed.

(** X1. [be16toh] permutes the 16-bit values: every [uint16_t] [y] is
    returned for exactly one input, so no two wire values convert to the
    same host value and no host value is unreachable. *)
Theorem be16toh_permutation (tc : toolchain) (y : Z) :
  C.is_uint16 y ->
  exists x : Z,
    C.is_uint16 x /\ be16toh tc x = Some y /\
    forall x' : Z, C.is_uint16 x' -> be16toh tc x' = Some y -> x' = x.
Proof.
  intros Hy. exists (Spec.swap y).
  split; [apply swap_uint16; exact Hy | ]. split.
  - rewrite (be16toh_swap _ (swap_uint16 y Hy)).
    f_equal. apply swap_swap. exact Hy.
  - intros x' Hx' E. rewrite (be16toh_swap x' Hx') in E.
    injection E as E. rewrite <- E. symmetry. apply swap_swap. exact Hx'.
Qed.

Lemma be16toh_permutation_witness :
  C.is_uint16 0x3412 /\
  exists x : Z,
    C.is_uint16 x /\ be16toh clang x = Some 0x3412 /\
    forall x' : Z, C.is_uint16 x' -> be16toh clang x' = Some 0x3412 -> x' = x.
Proof.
  split; [in_range | ].
  apply (be16toh_permutation clang 0x3412); in_range.
Defined.

(** The swap loses nothing: two 16-bit values with the same swap are
    equal. *)
Lemma swap_inj (u v : Z) :
  C.is_uint16 u -> C.is_uint16 v -> Spec.swap u = Spec.swap v -> u = v.
Proof.
  intros Hu Hv E.
  rewrite <- (swap_swap u Hu), <- (swap_swap v Hv). now rewrite E.
Qed.

(** X2. [be16toh] commutes with the bitwise operators: converting
    [a | b], [a & b] or [a ^ b] gives the same as combining the converted
    operands.  So a flag test made on converted operands, the mask
    converted like the value, answers as the test on the unconverted
    ones: [(a & m) == 0] exactly when
    [(be16toh a & be16toh m) == 0], and [(a & m) == m] exactly when
    [(be16toh a & be16toh m) == be16toh m]. *)
Theorem be16toh_bitwise (tc : toolchain) (a m : Z) :
  C.is_uint16 a -> C.is_uint16 m ->
  exists a' m' : Z,
    be16toh tc a = Some a' /\ be16toh tc m = Some m' /\
    be16toh tc (Z.lor a m) = Some (Z.lor a' m') /\
    be16toh tc (Z.land a m) = Some (Z.land a' m') /\
    be16toh tc (Z.lxor a m) = Some (Z.lxor a' m') /\
    (Z.land a m = 0 <-> Z.land a' m' = 0) /\
    (Z.land a m = m <-> Z.land a' m' = m').
Proof.
  intros Ha Hm.
  destruct (bitwise_uint16 a m Ha Hm) as [Hor [Hand Hxor]].
  assert (H0 : C.is_uint16 0) by in_range.
  exists (Spec.swap a), (Spec.swap m).
  rewrite (be16toh_swap a Ha), (be16toh_swap m Hm).
  rewrite (be16toh_swap _ Hor), (be16toh_swap _ Hand),
          (be16toh_swap _ Hxor).
  rewrite (swap_lor a m Ha Hm), (swap_lxor a m Ha Hm).
  rewrite <- (swap_land a m Ha Hm).
  do 5 (split; [reflexivity | ]).
  split; split.
  - intros ->. reflexivity.
  - intros E. apply (swap_inj _ 0 Hand H0). exact E.
  - intros E. now rewrite E.
  - intros E. apply (swap_inj _ m Hand Hm). exact E.
Qed.

Lemma be16toh_bitwise_witness :
  C.is_uint16 0x12F0 /\ C.is_uint16 0x0100 /\
  be16toh plain_cc (Z.land 0x12F0 0x0100) = Some (Z.land 0xF012 0x0001) /\
  (Z.land 0x12F0 0x0100 = 0 <-> Z.land 0xF012 0x0001 = 0).
Proof.
  split; [in_range | ]. split; [in_range | ].
  destruct (be16toh_bitwise plain_cc 0x12F0 0x0100)
    as [a' [m' [Ea [Em [_ [Eand [_ [Ezero _]]]]]]]];
    [in_range | in_range | ].
  injection Ea as <-. injection Em as <-.
  split; [exact Eand | exact Ezero].
Defined.

(** X3. Reading the wire: when two octets [b0], [b1] lie in that order in
    the memory of the little-endian target and are loaded as one
    [uint16_t], [le16toh] returns the number they spell least significant
    octet first, [b0 + 256 * b1], and [be16toh] the number they spell most
    significant octet first, [256 * b0 + b1]. *)
Theorem wire_octets_to_host (tc : toolchain) (b0 b1 : Z) :
  C.is_byte b0 -> C.is_byte b1 ->
  le16toh (Octets.of_octets [b0; b1]) = Some (b0 + 256 * b1) /\
  be16toh tc (Octets.of_octets [b0; b1]) = Some (256 * b0 + b1).
Proof.
  intros H0 H1. rewrite of_octets_pair. split.
  - unfold le16toh, UB.ret. f_equal. rewrite (join_add b1 b0 H0). lia.
  - rewrite (be16toh_swap _ (join_uint16 b1 b0 H1 H0)).
    f_equal. rewrite (swap_join b1 b0 H1 H0). apply join_add. exact H1.
Qed.

Lemma wire_octets_to_host_witness :
  C.is_byte 0x01 /\ C.is_byte 0xBB /\
  le16toh (Octets.of_octets [0x01; 0xBB]) = Some 47873 /\
  be16toh clang (Octets.of_octets [0x01; 0xBB]) = Some 443.
Proof.
  split; [in_range | ]. split; [in_range | ].
  apply (wire_octets_to_host clang 0x01 0xBB); in_range.
Defined.
